(** * semver constraints: a shallow embedding of [constraint.go]

    The Go package [semver] represents sets of semantic versions as values
    of the sealed interface [Constraint] ([any], [none], [*Version],
    [rangeConstraint], [unionConstraint]) and combines them with
    [Intersect], [Intersection] and [Union].

    Conventions of the embedding:
    - a [*Version] that may be [nil] (the bounds of a range) is an
      [option V]; a [*Version] that the code only ever reads through
      (the argument of [Admits], the members of [excl], a [*Version] used
      as a constraint) is a [V];
    - a Go [error] is an [option error], [None] being [nil];
    - a function that can panic returns a [result]. *)

From Stdlib Require Import ZArith List String Ascii Bool Lia DecimalString.
Import ListNotations.

Local Open Scope string_scope.
Local Open Scope Z_scope.

Set Implicit Arguments.
Set Warnings "-register-all".

(** ** Panics *)

Inductive result (A : Type) : Type :=
| Ok (a : A)
| Panic (msg : string).

Arguments Ok {A} a.
Arguments Panic {A} msg.

Definition bind {A B : Type} (r : result A) (k : A -> result B) : result B :=
  match r with
  | Ok a => k a
  | Panic msg => Panic msg
  end.

Notation "x <- r ;; k" := (bind r (fun x => k))
  (at level 61, r at next level, right associativity).

(** The message of the Go runtime when a nil pointer is read through. *)
Definition nilDereference : string :=
  "runtime error: invalid memory address or nil pointer dereference".

(** ** Errors *)

(** An error value is identified with its message. *)
Definition error : Type := string.

(** [fmt.Sprintf] restricted to the [%s] verb, which is the only verb the
    package uses. *)
Fixpoint Sprintf (format : string) (args : list string) : string :=
  match format with
  | EmptyString => EmptyString
  | String c rest =>
      match rest with
      | String d rest' =>
          if (Ascii.eqb c "%" && Ascii.eqb d "s")%bool then
            match args with
            | a :: args' => a ++ Sprintf rest' args'
            | [] => "%!s(MISSING)" ++ Sprintf rest' []
            end
          else String c (Sprintf rest args)
      | EmptyString => String c EmptyString
      end
  end.

Definition Errorf (format : string) (args : list string) : error :=
  Sprintf format args.

(** [var noneErr = errors.New(...)] *)
Definition noneErr : error := "The 'None' constraint admits no versions.".

(** ** The Version collaborator *)

(** Modelled from the spec: the [Version] type is not part of
    [constraint.go]; the specification gives its contract as a three-way
    comparison and a display form.  Both are taken as parameters. *)
Class VersionOps (V : Type) : Type := {
  Version_Compare : V -> V -> Z;
  Version_String : V -> string
}.

(** Modelled from the spec: what "total ordering via three-way comparison"
    gives about [Compare]: the result is -1, 0 or 1, and swapping the
    operands negates it. *)
Class VersionLaws (V : Type) {ops : VersionOps V} : Prop := {
  Compare_range : forall a b : V,
    Version_Compare a b = -1 \/ Version_Compare a b = 0 \/ Version_Compare a b = 1;
  Compare_antisym : forall a b : V,
    Version_Compare b a = - Version_Compare a b
}.

(** Modelled from the spec: the Version collaborator is "totally ordered":
    the comparison is transitive. *)
Class VersionTransitive (V : Type) {ops : VersionOps V} : Prop := {
  Compare_trans : forall a b c : V,
    Version_Compare a b <= 0 -> Version_Compare b c <= 0 ->
    Version_Compare a c <= 0
}.

Section Constraints.

Context {V : Type} {ops : VersionOps V}.

(** Modelled from the spec: the "dedicated equality/less-than/greater-than
    conveniences" of the Version collaborator, each a test on the result of
    [Compare]. *)
Definition Version_Equal (v o : V) : bool := Version_Compare v o =? 0.
Definition Version_LessThan (v o : V) : bool := Version_Compare v o <? 0.
Definition Version_GreaterThan (v o : V) : bool := 0 <? Version_Compare v o.

(** Modelled from the spec: the comparison methods read the fields of the
    receiver and of the argument, so calling one with a nil pointer on
    either side is a nil pointer dereference. *)
Definition deref2 (f : V -> V -> bool) (v o : option V) : result bool :=
  match v, o with
  | Some x, Some y => Ok (f x y)
  | _, _ => Panic nilDereference
  end.

(** ** Data model *)

Record rangeConstraint : Type := mkRange {
  min : option V;
  max : option V;
  includeMin : bool;
  includeMax : bool;
  excl : list V
}.

Inductive Constraint : Type :=
| C_any
| C_none
| C_Version (v : V)
| C_range (rc : rangeConstraint)
| C_union (uc : list Constraint).

Definition Any : Constraint := C_any.
Definition None_ : Constraint := C_none.

(** ** Admits *)

Definition any_Admits (v : V) : option error := None.

Definition none_Admits (v : V) : option error := Some noneErr.

(** The loop over [rc.excl] at the end of [rangeConstraint.Admits]. *)
Fixpoint exclLoop (l : list V) (v : V) : option error :=
  match l with
  | [] => None
  | e :: l' =>
      if Version_Equal e v
      then Some (Errorf "Version %s is specifically disallowed." [Version_String v])
      else exclLoop l' v
  end.

Definition checkMin (rc : rangeConstraint) (v : V) : option error :=
  match min rc with
  | Some m =>
      let cmp := Version_Compare m v in
      let emsg := if includeMin rc then "%s is less than %s"
                  else "%s is less than or equal to %s" in
      let fail := if includeMin rc then cmp =? 1 else negb (cmp =? -1) in
      if fail then Some (Errorf emsg [Version_String v; Version_String m])
      else None
  | None => None
  end.

Definition checkMax (rc : rangeConstraint) (v : V) : option error :=
  match max rc with
  | Some m =>
      let cmp := Version_Compare m v in
      let emsg := if includeMax rc then "%s is greater than %s"
                  else "%s is greater than or equal to %s" in
      let fail := if includeMax rc then cmp =? -1 else negb (cmp =? 1) in
      if fail then Some (Errorf emsg [Version_String v; Version_String m])
      else None
  | None => None
  end.

Definition rangeConstraint_Admits (rc : rangeConstraint) (v : V) : option error :=
  match checkMin rc v with
  | Some e => Some e
  | None =>
      match checkMax rc v with
      | Some e => Some e
      | None => exclLoop (excl rc) v
      end
  end.

(** Modelled from the spec: [Version.Admits] "delegates to equality".  The
    text of its error is not given; only its presence matters below. *)
Definition Version_Admits (x v : V) : option error :=
  if Version_Equal x v then None
  else Some (Errorf "%s is not equal to %s" [Version_String v; Version_String x]).

(** The loop of [unionConstraint.Admits]: [err] is the variable declared
    before the loop and returned after it; [admits c] stands for
    [c.Admits(v)]. *)
Definition unionAdmitsLoop (admits : Constraint -> option error)
  : list Constraint -> option error -> option error :=
  fix loop (uc : list Constraint) (err : option error) : option error :=
    match uc with
    | [] => err
    | c :: uc' =>
        match admits c with
        | None => None
        | Some e => loop uc' (Some e)
        end
    end.

Fixpoint Admits (c : Constraint) (v : V) {struct c} : option error :=
  match c with
  | C_any => any_Admits v
  | C_none => none_Admits v
  | C_Version x => Version_Admits x v
  | C_range rc => rangeConstraint_Admits rc v
  | C_union uc => unionAdmitsLoop (fun c' => Admits c' v) uc None
  end.

Definition unionConstraint_Admits (uc : list Constraint) (v : V) : option error :=
  Admits (C_union uc) v.

(** ** AdmitsAny *)

(** Modelled from the spec: [AdmitsAny] of an Exact constraint "is true". *)
Definition AdmitsAny (c : Constraint) : bool :=
  match c with
  | C_any => true
  | C_none => false
  | C_Version _ => true
  | C_range _ => true
  | C_union _ => true
  end.

(** ** IsNone, IsAny *)

Definition IsNone (c : Constraint) : bool :=
  match c with
  | C_none => true
  | _ => false
  end.

(** The type assertion in the source is [c.(none)], as in [IsNone]. *)
Definition IsAny (c : Constraint) : bool :=
  match c with
  | C_none => true
  | _ => false
  end.

(** ** Union *)

(** The preliminary pass of [Union]: the first member of dynamic type
    [any], if there is one. *)
Fixpoint findAny (cg : list Constraint) : option Constraint :=
  match cg with
  | [] => None
  | c :: cg' =>
      match c with
      | C_any => Some c
      | _ => findAny cg'
      end
  end.

Definition Union (cg : list Constraint) : result Constraint :=
  match cg with
  | [] => Ok None_
  | [c] => Ok c
  | _ =>
      match findAny cg with
      | Some c => Ok c
      | None => Panic "unfinished"
      end
  end.

(** ** Intersect *)

Definition any_Intersect (c : Constraint) : result Constraint := Ok c.

Definition none_Intersect (c : Constraint) : result Constraint := Ok None_.

(** Modelled from the spec: [Version.Intersect] "with anything returns the
    Exact constraint if the other operand admits that version, else
    Empty". *)
Definition Version_Intersect (v : V) (c : Constraint) : result Constraint :=
  match Admits c v with
  | None => Ok (C_Version v)
  | Some _ => Ok None_
  end.

Definition dup (rc : rangeConstraint) : rangeConstraint :=
  let excl' := match excl rc with
               | [] => []
               | _ :: _ => excl rc
               end in
  mkRange (min rc) (max rc) (includeMin rc) (includeMax rc) excl'.

(** [if oc.min != nil { ... }] of the [rangeConstraint] case. *)
Definition mergeMin (nr oc : rangeConstraint) : rangeConstraint :=
  match min oc with
  | None => nr
  | Some omin =>
      match min nr with
      | None =>
          mkRange (min oc) (max nr) (includeMin oc) (includeMax nr) (excl nr)
      | Some nmin =>
          if Version_LessThan nmin omin then
            mkRange (min oc) (max nr) (includeMin oc) (includeMax nr) (excl nr)
          else if (Version_Equal omin nmin && negb (includeMin oc))%bool then
            mkRange (min nr) (max nr) false (includeMax nr) (excl nr)
          else nr
      end
  end.

(** [if oc.max != nil { ... }] of the [rangeConstraint] case. *)
Definition mergeMax (nr oc : rangeConstraint) : rangeConstraint :=
  match max oc with
  | None => nr
  | Some omax =>
      match max nr with
      | None =>
          mkRange (min nr) (max oc) (includeMin nr) (includeMax oc) (excl nr)
      | Some nmax =>
          if Version_GreaterThan nmax omax then
            mkRange (min nr) (max oc) (includeMin nr) (includeMax oc) (excl nr)
          else if (Version_Equal omax nmax && negb (includeMax oc))%bool then
            mkRange (min nr) (max nr) (includeMin nr) false (excl nr)
          else nr
      end
  end.

(** The value of [nr] when control reaches line 197: the copy of the
    receiver with both bounds merged. *)
Definition mergeBounds (rc oc : rangeConstraint) : rangeConstraint :=
  mergeMax (mergeMin (dup rc) oc) oc.

(** Lines 197-217: what is returned for the merged range [nr]. *)
Definition validate (nr : rangeConstraint) : result Constraint :=
  match min nr, max nr with
  | None, None => Ok (C_range nr)
  | _, _ =>
      eq <- deref2 Version_Equal (min nr) (max nr) ;;
      if eq then
        if (includeMin nr && includeMax nr)%bool then
          match min nr with
          | Some lo => Ok (C_Version lo)
          | None => Panic nilDereference
          end
        else Ok None_
      else
        match min nr, max nr with
        | Some lo, Some hi =>
            if Version_GreaterThan lo hi then Ok None_ else Ok (C_range nr)
        | _, _ => Ok (C_range nr)
        end
  end.

(** [case rangeConstraint:] of [rangeConstraint.Intersect]. *)
Definition rangeConstraint_Intersect_range (rc oc : rangeConstraint)
  : result Constraint :=
  validate (mergeBounds rc oc).

(** The inner loop of [unionConstraint.Intersect], for one member [c] of
    the receiver: [isect oc] stands for [c.Intersect(oc)]. *)
Definition innerLoop (isect : Constraint -> result Constraint)
  : list Constraint -> list Constraint -> result (list Constraint) :=
  fix inner (other newc : list Constraint) : result (list Constraint) :=
    match other with
    | [] => Ok newc
    | oc :: other' =>
        i <- isect oc ;;
        inner other' (if IsNone i then newc else (newc ++ [i])%list)
    end.

(** The outer loop of [unionConstraint.Intersect]: [isect c oc] stands for
    [c.Intersect(oc)]. *)
Definition crossLoop (isect : Constraint -> Constraint -> result Constraint)
    (other : list Constraint)
  : list Constraint -> list Constraint -> result (list Constraint) :=
  fix outer (uc newc : list Constraint) : result (list Constraint) :=
    match uc with
    | [] => Ok newc
    | c :: uc' =>
        newc' <- innerLoop (isect c) other newc ;;
        outer uc' newc'
    end.

(** [c.Intersect(rc)] for an argument of dynamic type [rangeConstraint].
    It is defined ahead of [Intersect] because a range receiver hands a
    union argument [oc] over to [oc.Intersect(rc)], which recurses into the
    members of the argument; [Intersect_with_range_eq] shows that it is
    [Intersect] at a range argument. *)
Fixpoint Intersect_with_range (c : Constraint) (rc : rangeConstraint)
    {struct c} : result Constraint :=
  match c with
  | C_any => any_Intersect (C_range rc)
  | C_none => none_Intersect (C_range rc)
  | C_Version v => Version_Intersect v (C_range rc)
  | C_range r => rangeConstraint_Intersect_range r rc
  | C_union uc =>
      newc <- crossLoop (fun c' _ => Intersect_with_range c' rc)
                [C_range rc] uc [] ;;
      Union newc
  end.

Fixpoint Intersect (c c2 : Constraint) {struct c} : result Constraint :=
  match c with
  | C_any => any_Intersect c2
  | C_none => none_Intersect c2
  | C_Version v => Version_Intersect v c2
  | C_range rc =>
      match c2 with
      | C_any => Ok (C_range rc)
      | C_none => Ok None_
      | C_union oc => Intersect_with_range (C_union oc) rc
      | C_Version _ =>
          (* [err := rc.Admits] is the method value, which is never nil *)
          Ok None_
      | C_range oc => rangeConstraint_Intersect_range rc oc
      end
  | C_union uc =>
      match c2 with
      | C_none => Ok None_
      | C_any => Ok (C_union uc)
      | C_Version _ => Ok c2
      | C_range _ =>
          newc <- crossLoop (fun c' oc => Intersect c' oc) [c2] uc [] ;;
          Union newc
      | C_union oc =>
          newc <- crossLoop (fun c' oc => Intersect c' oc) oc uc [] ;;
          Union newc
      end
  end.

Definition rangeConstraint_Intersect (rc : rangeConstraint) (c : Constraint)
  : result Constraint :=
  Intersect (C_range rc) c.

Definition unionConstraint_Intersect (uc : list Constraint) (c2 : Constraint)
  : result Constraint :=
  Intersect (C_union uc) c2.

(** ** Intersection *)

(** The preliminary pass of [Intersection]: the first member of dynamic
    type [none] or [*Version], if there is one. *)
Fixpoint findSuperseding (cg : list Constraint) : option Constraint :=
  match cg with
  | [] => None
  | c :: cg' =>
      match c with
      | C_none | C_Version _ => Some c
      | _ => findSuperseding cg'
      end
  end.

(** [for _, c := range tail { head = head.Intersect(c) }] *)
Fixpoint foldIntersect (head : Constraint) (tail : list Constraint)
  : result Constraint :=
  match tail with
  | [] => Ok head
  | c :: tail' =>
      head' <- Intersect head c ;;
      foldIntersect head' tail'
  end.

Definition Intersection (cg : list Constraint) : result Constraint :=
  match cg with
  | [] => Ok None_
  | [c] => Ok c
  | head :: tail =>
      match findSuperseding cg with
      | Some c => Ok c
      | None => foldIntersect head tail
      end
  end.

(** ** What the spec's words mean on a range *)

(** A lower bound exists and [v] violates it: [v] is below an inclusive
    bound, or below or at an exclusive one. *)
Definition belowMin (rc : rangeConstraint) (v : V) : Prop :=
  exists m, min rc = Some m /\
    if includeMin rc then Version_LessThan v m = true
    else Version_LessThan v m = true \/ Version_Equal v m = true.

(** An upper bound exists and [v] violates it. *)
Definition aboveMax (rc : rangeConstraint) (v : V) : Prop :=
  exists m, max rc = Some m /\
    if includeMax rc then Version_GreaterThan v m = true
    else Version_GreaterThan v m = true \/ Version_Equal v m = true.

(** [v] equals one of the excluded versions. *)
Definition excluded (rc : rangeConstraint) (v : V) : Prop :=
  exists x, In x (excl rc) /\ Version_Equal x v = true.

(** The list handed to [Union] by [unionConstraint.Intersect], for a range
    argument (a one-member list) and for a union argument. *)
Definition others (c2 : Constraint) : list Constraint :=
  match c2 with
  | C_union oc => oc
  | _ => [c2]
  end.


(** [v] lies within the bounds of [rc], whatever [rc] excludes. *)
Definition withinBounds (rc : rangeConstraint) (v : V) : Prop :=
  ~ belowMin rc v /\ ~ aboveMax rc v.

End Constraints.

Arguments Constraint : clear implicits.
Arguments rangeConstraint : clear implicits.
Arguments C_any {V}.
Arguments C_none {V}.
Arguments Any {V}.
Arguments None_ {V}.

(** ** A concrete Version *)

(** Modelled from the spec: the [Version] type itself is outside
    [constraint.go].  For evaluating the code on the versions the
    specification names (1.0, 1.5, 2.0, ...) this is a version of three
    numeric segments, compared segment by segment, without pre-release or
    build metadata. *)
Module SemVer.

Record Version : Type := mkVersion {
  major : N;
  minor : N;
  patch : N
}.

Definition compareSegment (v o : N) : Z :=
  if (v <? o)%N then -1
  else if (o <? v)%N then 1
  else 0.

Definition Compare (v o : Version) : Z :=
  let d := compareSegment (major v) (major o) in
  if negb (d =? 0) then d
  else
    let d := compareSegment (minor v) (minor o) in
    if negb (d =? 0) then d
    else compareSegment (patch v) (patch o).

Definition segmentString (n : N) : string :=
  NilZero.string_of_uint (N.to_uint n).

Definition String (v : Version) : string :=
  segmentString (major v) ++ "." ++ segmentString (minor v)
  ++ "." ++ segmentString (patch v).

#[global] Instance ops : VersionOps Version := {
  Version_Compare := Compare;
  Version_String := String
}.

Definition v1_0 : Version := mkVersion 1 0 0.
Definition v1_5 : Version := mkVersion 1 5 0.
Definition v1_8 : Version := mkVersion 1 8 0.
Definition v2_0 : Version := mkVersion 2 0 0.
Definition v3_0 : Version := mkVersion 3 0 0.
Definition v4_0 : Version := mkVersion 4 0 0.
Definition v4_5 : Version := mkVersion 4 5 0.
Definition v5_0 : Version := mkVersion 5 0 0.
Definition v6_0 : Version := mkVersion 6 0 0.

(** The range [lo, hi] with both bounds inclusive and no exclusions. *)
Definition closed (lo hi : Version) : rangeConstraint Version :=
  mkRange (Some lo) (Some hi) true true [].

(** The range from [lo] up, inclusive, with no upper bound. *)
Definition atLeast (lo : Version) : rangeConstraint Version :=
  mkRange (Some lo) None true false [].

(** The range [lo, hi) with the upper bound exclusive. *)
Definition halfOpen (lo hi : Version) : rangeConstraint Version :=
  mkRange (Some lo) (Some hi) true false [].

(** [1.0, 5.0] without 2.0, and [1.0, 5.0] without 3.0. *)
Definition without2 : rangeConstraint Version :=
  mkRange (Some v1_0) (Some v5_0) true true [v2_0].
Definition without3 : rangeConstraint Version :=
  mkRange (Some v1_0) (Some v5_0) true true [v3_0].

(** The two unions of the cross-product example. *)
Definition unionLeft : list (Constraint Version) :=
  [C_range (closed v1_0 v2_0); C_range (closed v4_0 v5_0)].
Definition unionRight : list (Constraint Version) :=
  [C_range (closed v1_5 v1_8); C_range (closed v4_5 v6_0)].

End SemVer.

Section ConstraintFacts.

Context {V : Type} {ops : VersionOps V}.

(** ** Basic facts *)

Lemma append_empty_r (s : string) : s ++ "" = s.
Proof. induction s as [|c s IH]; simpl; [reflexivity|now rewrite IH]. Qed.

Lemma Sprintf_less (a b : string) :
  Sprintf "%s is less than %s" [a; b] = a ++ " is less than " ++ b.
Proof. cbn. now rewrite append_empty_r. Qed.

Lemma Sprintf_less_equal (a b : string) :
  Sprintf "%s is less than or equal to %s" [a; b]
  = a ++ " is less than or equal to " ++ b.
Proof. cbn. now rewrite append_empty_r. Qed.

Lemma Sprintf_greater (a b : string) :
  Sprintf "%s is greater than %s" [a; b] = a ++ " is greater than " ++ b.
Proof. cbn. now rewrite append_empty_r. Qed.

Lemma Sprintf_greater_equal (a b : string) :
  Sprintf "%s is greater than or equal to %s" [a; b]
  = a ++ " is greater than or equal to " ++ b.
Proof. cbn. now rewrite append_empty_r. Qed.

Lemma Sprintf_disallowed (a : string) :
  Sprintf "Version %s is specifically disallowed." [a]
  = "Version " ++ a ++ " is specifically disallowed.".
Proof. reflexivity. Qed.

(** Induction over constraints that reaches the members of a union. *)
Fixpoint Constraint_nested_ind (P : Constraint V -> Prop)
    (Hany : P C_any) (Hnone : P C_none)
    (Hversion : forall v, P (C_Version v))
    (Hrange : forall rc, P (C_range rc))
    (Hunion : forall uc, Forall P uc -> P (C_union uc))
    (c : Constraint V) {struct c} : P c :=
  match c with
  | C_any => Hany
  | C_none => Hnone
  | C_Version v => Hversion v
  | C_range rc => Hrange rc
  | C_union uc =>
      Hunion uc
        ((fix members (l : list (Constraint V)) : Forall P l :=
            match l with
            | [] => Forall_nil P
            | c' :: l' =>
                Forall_cons c'
                  (Constraint_nested_ind Hany Hnone Hversion Hrange Hunion c')
                  (members l')
            end) uc)
  end.

Lemma innerLoop_ext (f g : Constraint V -> result (Constraint V)) other :
  (forall oc, In oc other -> f oc = g oc) ->
  forall newc, innerLoop f other newc = innerLoop g other newc.
Proof.
  induction other as [|oc other IH]; intros Hfg newc; simpl.
  - reflexivity.
  - rewrite (Hfg oc) by now left.
    destruct (g oc) as [i|msg]; simpl; [|reflexivity].
    apply IH. intros oc' Hin. apply Hfg. now right.
Qed.

Lemma crossLoop_ext (f g : Constraint V -> Constraint V -> result (Constraint V))
    other uc :
  Forall (fun c => forall oc, In oc other -> f c oc = g c oc) uc ->
  forall newc, crossLoop f other uc newc = crossLoop g other uc newc.
Proof.
  induction 1 as [|c uc Hc _ IH]; intros newc; simpl.
  - reflexivity.
  - rewrite (innerLoop_ext (f c) (g c) other Hc).
    destruct (innerLoop (g c) other newc); simpl; [apply IH|reflexivity].
Qed.

(** The helper is [Intersect] at an argument of type [rangeConstraint]. *)
Lemma Intersect_with_range_eq (c : Constraint V) (rc : rangeConstraint V) :
  Intersect_with_range c rc = Intersect c (C_range rc).
Proof.
  induction c as [| | v | r | uc IH] using Constraint_nested_ind;
    try reflexivity.
  simpl. f_equal.
  apply crossLoop_ext.
  eapply Forall_impl; [|exact IH].
  intros c Hc oc [<-|[]]. exact Hc.
Qed.

(** [case unionConstraint: return oc.Intersect(rc)] *)
Lemma Intersect_range_union (rc : rangeConstraint V) (oc : list (Constraint V)) :
  Intersect (C_range rc) (C_union oc) = Intersect (C_union oc) (C_range rc).
Proof. exact (Intersect_with_range_eq (C_union oc) rc). Qed.

(** The body of [unionConstraint.Intersect] past its type switch. *)
Lemma Intersect_union_union (uc oc : list (Constraint V)) :
  Intersect (C_union uc) (C_union oc)
  = (newc <- crossLoop (fun c c2 => Intersect c c2) oc uc [] ;; Union newc).
Proof. reflexivity. Qed.

Lemma Intersect_union_range (uc : list (Constraint V)) (rc : rangeConstraint V) :
  Intersect (C_union uc) (C_range rc)
  = (newc <- crossLoop (fun c c2 => Intersect c c2) [C_range rc] uc [] ;;
     Union newc).
Proof. reflexivity. Qed.

Lemma Admits_union (uc : list (Constraint V)) (v : V) :
  Admits (C_union uc) v = unionAdmitsLoop (fun c => Admits c v) uc None.
Proof. reflexivity. Qed.

(** The merge never touches the exclusion list of the copy. *)
Lemma excl_mergeBounds (rc oc : rangeConstraint V) :
  excl (mergeBounds rc oc) = excl rc.
Proof.
  unfold mergeBounds, mergeMax, mergeMin, dup.
  destruct rc as [mn mx imn imx ex], oc as [omn omx oimn oimx oex]; simpl.
  assert (Hex : match ex with [] => [] | _ :: _ => ex end = ex)
    by now destruct ex.
  rewrite Hex.
  destruct omn as [omin|], mn as [nmin|]; simpl;
    repeat match goal with
           | |- context [if ?b then _ else _] => destruct b; simpl
           | |- context [match ?o with Some _ => _ | None => _ end] =>
               destruct o; simpl
           end; reflexivity.
Qed.

(** What [validate] returns, by the bounds of the merged range. *)
Lemma validate_unbounded (nr : rangeConstraint V) :
  min nr = None -> max nr = None -> validate nr = Ok (C_range nr).
Proof. unfold validate. now intros -> ->. Qed.

Lemma validate_bounded (nr : rangeConstraint V) (lo hi : V) :
  min nr = Some lo -> max nr = Some hi ->
  validate nr =
    if Version_Equal lo hi then
      if (includeMin nr && includeMax nr)%bool then Ok (C_Version lo)
      else Ok None_
    else if Version_GreaterThan lo hi then Ok None_
    else Ok (C_range nr).
Proof. unfold validate. intros -> ->. simpl. reflexivity. Qed.

Lemma validate_only_min (nr : rangeConstraint V) (lo : V) :
  min nr = Some lo -> max nr = None -> validate nr = Panic nilDereference.
Proof. unfold validate. now intros -> ->. Qed.

Lemma validate_only_max (nr : rangeConstraint V) (hi : V) :
  min nr = None -> max nr = Some hi -> validate nr = Panic nilDereference.
Proof. unfold validate. now intros -> ->. Qed.

(** ** Admission by a range *)

Section RangeAdmits.

Context {laws : @VersionLaws V ops}.

Lemma failMin_spec (m v : V) (inclusive : bool) :
  (if inclusive then Version_Compare m v =? 1
   else negb (Version_Compare m v =? -1)) = true
  <-> (if inclusive then Version_LessThan v m = true
       else Version_LessThan v m = true \/ Version_Equal v m = true).
Proof.
  unfold Version_LessThan, Version_Equal.
  rewrite (Compare_antisym m v).
  destruct (Compare_range m v) as [Hc|[Hc|Hc]]; rewrite Hc;
    destruct inclusive; simpl; intuition discriminate.
Qed.

Lemma failMax_spec (m v : V) (inclusive : bool) :
  (if inclusive then Version_Compare m v =? -1
   else negb (Version_Compare m v =? 1)) = true
  <-> (if inclusive then Version_GreaterThan v m = true
       else Version_GreaterThan v m = true \/ Version_Equal v m = true).
Proof.
  unfold Version_GreaterThan, Version_Equal.
  rewrite (Compare_antisym m v).
  destruct (Compare_range m v) as [Hc|[Hc|Hc]]; rewrite Hc;
    destruct inclusive; simpl; intuition discriminate.
Qed.

Lemma checkMin_spec (rc : rangeConstraint V) (v : V) :
  match checkMin rc v with
  | Some e =>
      belowMin rc v /\
      exists m, min rc = Some m /\
        e = Version_String v
            ++ (if includeMin rc then " is less than "
                else " is less than or equal to ")
            ++ Version_String m
  | None => ~ belowMin rc v
  end.
Proof.
  unfold checkMin, belowMin.
  destruct (min rc) as [m|].
  - pose proof (failMin_spec m v (includeMin rc)) as Hf.
    destruct (if includeMin rc then Version_Compare m v =? 1
              else negb (Version_Compare m v =? -1)).
    + split.
      * exists m. split; [reflexivity|]. now apply Hf.
      * exists m. split; [reflexivity|]. unfold Errorf.
        destruct (includeMin rc);
          [apply Sprintf_less|apply Sprintf_less_equal].
    + intros (m' & Hm & Hv). injection Hm as <-.
      apply Hf in Hv. discriminate.
  - intros (m & Hm & _). discriminate.
Qed.

Lemma checkMax_spec (rc : rangeConstraint V) (v : V) :
  match checkMax rc v with
  | Some e =>
      aboveMax rc v /\
      exists m, max rc = Some m /\
        e = Version_String v
            ++ (if includeMax rc then " is greater than "
                else " is greater than or equal to ")
            ++ Version_String m
  | None => ~ aboveMax rc v
  end.
Proof.
  unfold checkMax, aboveMax.
  destruct (max rc) as [m|].
  - pose proof (failMax_spec m v (includeMax rc)) as Hf.
    destruct (if includeMax rc then Version_Compare m v =? -1
              else negb (Version_Compare m v =? 1)).
    + split.
      * exists m. split; [reflexivity|]. now apply Hf.
      * exists m. split; [reflexivity|]. unfold Errorf.
        destruct (includeMax rc);
          [apply Sprintf_greater|apply Sprintf_greater_equal].
    + intros (m' & Hm & Hv). injection Hm as <-.
      apply Hf in Hv. discriminate.
  - intros (m & Hm & _). discriminate.
Qed.

End RangeAdmits.

Lemma exclLoop_spec (l : list V) (v : V) :
  match exclLoop l v with
  | Some e =>
      (exists x, In x l /\ Version_Equal x v = true) /\
      e = "Version " ++ Version_String v ++ " is specifically disallowed."
  | None => ~ exists x, In x l /\ Version_Equal x v = true
  end.
Proof.
  induction l as [|x l IH]; simpl.
  - intros (x & [] & _).
  - destruct (Version_Equal x v) eqn:Hx.
    + split; [|apply Sprintf_disallowed].
      exists x. split; [now left|exact Hx].
    + destruct (exclLoop l v) as [e|].
      * destruct IH as [(y & Hy & Hyv) He]. split; [|exact He].
        exists y. split; [now right|exact Hyv].
      * intros (y & [<-|Hy] & Hyv); [congruence|].
        apply IH. now exists y.
Qed.

(** ** Range against range *)

Lemma Intersect_range_range (rc oc : rangeConstraint V) :
  Intersect (C_range rc) (C_range oc) = validate (mergeBounds rc oc).
Proof. reflexivity. Qed.

(** When the merged copy keeps both bounds, the result is decided by
    comparing them. *)
Lemma Intersect_range_range_bounded (rc oc : rangeConstraint V) (lo hi : V) :
  min (mergeBounds rc oc) = Some lo ->
  max (mergeBounds rc oc) = Some hi ->
  Intersect (C_range rc) (C_range oc) =
    if Version_Equal lo hi then
      if (includeMin (mergeBounds rc oc) && includeMax (mergeBounds rc oc))%bool
      then Ok (C_Version lo) else Ok None_
    else if Version_GreaterThan lo hi then Ok None_
    else Ok (C_range (mergeBounds rc oc)).
Proof. intros Hlo Hhi. now apply validate_bounded. Qed.

(** When the merged copy keeps exactly one bound, line 202 calls [Equal]
    with a nil pointer on one side. *)
Lemma Intersect_range_range_one_bound (rc oc : rangeConstraint V) :
  (min (mergeBounds rc oc) = None <-> max (mergeBounds rc oc) <> None) ->
  Intersect (C_range rc) (C_range oc) = Panic nilDereference.
Proof.
  rewrite Intersect_range_range. unfold validate.
  destruct (min (mergeBounds rc oc)), (max (mergeBounds rc oc));
    intros [H1 H2]; simpl; try reflexivity.
  - exfalso. assert (Some v = None) by (apply H2; discriminate). discriminate.
  - exfalso. now apply H1.
Qed.

(** A range returned by range-against-range intersection carries the
    exclusion list of the receiver, and nothing of the argument's. *)
Lemma Intersect_range_range_excl (rc oc nr : rangeConstraint V) :
  Intersect (C_range rc) (C_range oc) = Ok (C_range nr) ->
  excl nr = excl rc.
Proof.
  rewrite Intersect_range_range. unfold validate.
  pose proof (excl_mergeBounds rc oc) as Hex.
  destruct (min (mergeBounds rc oc)) as [lo|],
           (max (mergeBounds rc oc)) as [hi|]; simpl;
    repeat match goal with
           | |- context [if ?b then _ else _] => destruct b
           end;
    intros H; inversion H; subst; exact Hex.
Qed.

(** [case *Version:] of [rangeConstraint.Intersect]: whatever the range and
    the version, the result is [None()]. *)
Lemma Intersect_range_version (rc : rangeConstraint V) (v : V) :
  Intersect (C_range rc) (C_Version v) = Ok None_.
Proof. reflexivity. Qed.

(** ** IsNone, IsAny *)

Lemma IsNone_spec (c : Constraint V) : IsNone c = true <-> c = C_none.
Proof. destruct c; simpl; split; congruence. Qed.

Lemma IsAny_IsNone (c : Constraint V) : IsAny c = IsNone c.
Proof. reflexivity. Qed.

(** ** Admission by a union *)

Lemma unionAdmitsLoop_none_admit (admits : Constraint V -> option error)
    (uc : list (Constraint V)) :
  (forall c, In c uc -> admits c <> None) ->
  forall err, err <> None \/ uc <> [] ->
  unionAdmitsLoop admits uc err <> None.
Proof.
  induction uc as [|c uc IH]; intros Hno err Herr; simpl.
  - destruct Herr as [Herr|Herr]; [exact Herr|congruence].
  - destruct (admits c) as [e|] eqn:Hc.
    + apply IH; [|left; discriminate].
      intros c' Hin. apply Hno. now right.
    + exfalso. apply (Hno c); [now left|exact Hc].
Qed.

(** With at least one member and no member admitting [v], the union
    returns an error. *)
Lemma Admits_union_nonempty (uc : list (Constraint V)) (v : V) :
  uc <> [] ->
  (forall c, In c uc -> Admits c v <> None) ->
  Admits (C_union uc) v <> None.
Proof.
  intros Hne Hno. rewrite Admits_union.
  apply unionAdmitsLoop_none_admit; [exact Hno|now right].
Qed.

(** ** Claims that hold for every Version type *)

(** C4: [IsAny] asserts the dynamic type [none], exactly as [IsNone] does:
    on the Universal constraint it answers false, and on the Empty
    constraint it answers true. *)
Theorem C4_IsAny_asserts_none :
  IsAny (@C_any V) = false /\ IsAny (@C_none V) = true.
Proof. split; reflexivity. Qed.

(** C6: for every constraint [c], [Intersection(None(), c)] returns
    [None()], and [Intersection(Any(), c)] returns [c] itself, so a
    constraint that admits exactly the versions that [c] admits. *)
Theorem C6_Intersection_none_any (c : Constraint V) :
  Intersection [None_; c] = Ok None_ /\
  Intersection [Any; c] = Ok c /\
  exists r, Intersection [Any; c] = Ok r /\
            forall v, Admits r v = Admits c v.
Proof.
  assert (Hany : Intersection [Any; c] = Ok c) by (destruct c; reflexivity).
  split; [reflexivity|]. split; [exact Hany|].
  exists c. split; [exact Hany|reflexivity].
Qed.

(** C8: for every range and every version [v], [Admits] returns an error
    exactly when a lower bound exists and [v] violates it, or an upper
    bound exists and [v] violates it, or [v] equals an excluded version;
    the error returned is the message naming [v] and the violated bound,
    or the message naming [v] as specifically disallowed. *)
Theorem C8_range_Admits (laws : @VersionLaws V ops)
    (rc : rangeConstraint V) (v : V) :
  (Admits (C_range rc) v <> None
   <-> belowMin rc v \/ aboveMax rc v \/ excluded rc v) /\
  (forall e, Admits (C_range rc) v = Some e ->
     (belowMin rc v /\
      exists m, min rc = Some m /\
        e = Version_String v
            ++ (if includeMin rc then " is less than "
                else " is less than or equal to ")
            ++ Version_String m) \/
     (aboveMax rc v /\
      exists m, max rc = Some m /\
        e = Version_String v
            ++ (if includeMax rc then " is greater than "
                else " is greater than or equal to ")
            ++ Version_String m) \/
     (excluded rc v /\
      e = "Version " ++ Version_String v ++ " is specifically disallowed.")).
Proof.
  simpl. unfold rangeConstraint_Admits, excluded.
  pose proof (checkMin_spec rc v) as Hmin.
  pose proof (checkMax_spec rc v) as Hmax.
  pose proof (exclLoop_spec (excl rc) v) as Hex.
  destruct (checkMin rc v) as [e1|].
  { split.
    - split; [intros _; left; apply Hmin|discriminate].
    - intros e [= <-]. left. exact Hmin. }
  destruct (checkMax rc v) as [e2|].
  { split.
    - split; [intros _; right; left; apply Hmax|discriminate].
    - intros e [= <-]. right. left. exact Hmax. }
  destruct (exclLoop (excl rc) v) as [e3|].
  { split.
    - split; [intros _; right; right; apply Hex|discriminate].
    - intros e [= <-]. right. right. exact Hex. }
  split.
  - split; [congruence|]. intros [H|[H|H]]; contradiction.
  - discriminate.
Qed.

(** C9: a union with zero members returns [nil] for every version: the
    loop does not run and the initial [err] is returned. *)
Theorem C9_empty_union_returns_nil (v : V) :
  Admits (C_union []) v = None.
Proof. reflexivity. Qed.

End ConstraintFacts.

(** ** The concrete Version is a lawful collaborator *)

Lemma compareSegment_range (a b : N) :
  SemVer.compareSegment a b = -1 \/ SemVer.compareSegment a b = 0
  \/ SemVer.compareSegment a b = 1.
Proof.
  unfold SemVer.compareSegment.
  destruct (a <? b)%N; [now left|].
  destruct (b <? a)%N; [now right; right|now right; left].
Qed.

Lemma compareSegment_antisym (a b : N) :
  SemVer.compareSegment b a = - SemVer.compareSegment a b.
Proof.
  unfold SemVer.compareSegment.
  destruct (N.ltb_spec a b), (N.ltb_spec b a); try lia; reflexivity.
Qed.

Lemma SemVer_laws : @VersionLaws SemVer.Version SemVer.ops.
Proof.
  split; intros a b; simpl; unfold SemVer.Compare.
  - destruct (compareSegment_range (SemVer.major a) (SemVer.major b))
      as [H|[H|H]]; rewrite H; simpl; auto.
    destruct (compareSegment_range (SemVer.minor a) (SemVer.minor b))
      as [H'|[H'|H']]; rewrite H'; simpl; auto.
    apply compareSegment_range.
  - rewrite (compareSegment_antisym (SemVer.major a) (SemVer.major b)).
    rewrite (compareSegment_antisym (SemVer.minor a) (SemVer.minor b)).
    rewrite (compareSegment_antisym (SemVer.patch a) (SemVer.patch b)).
    destruct (compareSegment_range (SemVer.major a) (SemVer.major b))
      as [H|[H|H]]; rewrite H; simpl; auto.
    destruct (compareSegment_range (SemVer.minor a) (SemVer.minor b))
      as [H'|[H'|H']]; rewrite H'; simpl; auto.
Qed.

(** ** Claims settled on the versions the specification names *)

Section Examples.

Import SemVer.

(** C1: intersecting [1.0, 5.0] without 2.0 with [1.0, 5.0] without 3.0
    returns the receiver's range, whose exclusion list is [2.0] alone: the
    result rejects 2.0 and admits 4.0, but it admits 3.0, which the
    argument excludes. *)
Theorem C1_argument_exclusions_dropped :
  Intersect (C_range without2) (C_range without3) = Ok (C_range without2) /\
  Admits (C_range without3) v3_0 <> None /\
  Admits (C_range without2) v2_0 <> None /\
  Admits (C_range without2) v3_0 = None /\
  Admits (C_range without2) v4_0 = None.
Proof. repeat split; try reflexivity; discriminate. Qed.

(** C2: the range [1.0, 3.0] admits 2.0, and intersecting it with the
    Exact constraint 2.0 returns the Empty constraint. *)
Theorem C2_range_Intersect_admitted_version :
  Admits (C_range (closed v1_0 v3_0)) v2_0 = None /\
  Intersect (C_range (closed v1_0 v3_0)) (C_Version v2_0) = Ok None_.
Proof. split; reflexivity. Qed.

(** C3: on the unions of the specification's example the cross product
    leaves the two survivors [1.5, 1.8] and [4.5, 5.0], and the n-ary
    Union constructor then panics with "unfinished". *)
Theorem C3_union_cross_product_panics :
  crossLoop (fun c c2 => Intersect c c2) unionRight unionLeft []
  = Ok [C_range (closed v1_5 v1_8); C_range (closed v4_5 v5_0)] /\
  Intersect (C_union unionLeft) (C_union unionRight) = Panic "unfinished".
Proof. split; reflexivity. Qed.

(** C5: the two orders of intersecting [1.0, 5.0] without 2.0 and
    [1.0, 5.0] without 3.0 disagree on version 3.0: one result admits it
    and the other rejects it. *)
Theorem C5_Intersect_orders_disagree :
  exists ab ba,
    Intersect (C_range without2) (C_range without3) = Ok ab /\
    Intersect (C_range without3) (C_range without2) = Ok ba /\
    Admits ab v3_0 = None /\
    Admits ba v3_0 <> None.
Proof.
  exists (C_range without2), (C_range without3).
  repeat split; try reflexivity; discriminate.
Qed.

(** C10: intersecting two ranges that each have only a lower bound leaves
    a merged range with a lower bound and no upper bound, and the
    comparison of the two bounds reads through the nil upper bound. *)
Theorem C10_one_bound_panics :
  min (mergeBounds (atLeast v1_0) (atLeast v2_0)) = Some v2_0 /\
  max (mergeBounds (atLeast v1_0) (atLeast v2_0)) = None /\
  Intersect (C_range (atLeast v1_0)) (C_range (atLeast v2_0))
  = Panic nilDereference.
Proof. repeat split; reflexivity. Qed.

(** A lower-only range against an upper-only range merges to a range with
    both bounds, so line 202 compares two present versions. *)
Example Intersect_lower_only_upper_only :
  Intersect (C_range (atLeast v1_0))
            (C_range (mkRange None (Some v2_0) false true []))
  = Ok (C_range (closed v1_0 v2_0)).
Proof. reflexivity. Qed.

End Examples.

(** C7: when the merged range has both bounds and they are equal, the
    result is the Exact constraint at that version if both merged bounds
    are inclusive and Empty otherwise; when the merged lower bound is
    greater than the merged upper bound, the result is Empty.  In
    particular [1.0, 2.0] with [2.0, 3.0] gives Exact 2.0, and [1.0, 2.0)
    with [2.0, 3.0] gives Empty. *)
Theorem C7_range_collapse :
  (forall (V : Type) (ops : VersionOps V) (rc oc : rangeConstraint V)
          (lo hi : V),
     min (mergeBounds rc oc) = Some lo ->
     max (mergeBounds rc oc) = Some hi ->
     (Version_Equal lo hi = true ->
      Intersect (C_range rc) (C_range oc) =
        Ok (if (includeMin (mergeBounds rc oc)
                && includeMax (mergeBounds rc oc))%bool
            then C_Version lo else None_)) /\
     (Version_GreaterThan lo hi = true ->
      Intersect (C_range rc) (C_range oc) = Ok None_)) /\
  Intersect (C_range (SemVer.closed SemVer.v1_0 SemVer.v2_0))
            (C_range (SemVer.closed SemVer.v2_0 SemVer.v3_0))
  = Ok (C_Version SemVer.v2_0) /\
  Intersect (C_range (SemVer.halfOpen SemVer.v1_0 SemVer.v2_0))
            (C_range (SemVer.closed SemVer.v2_0 SemVer.v3_0))
  = Ok None_.
Proof.
  split; [|split; reflexivity].
  intros V ops rc oc lo hi Hlo Hhi.
  rewrite (Intersect_range_range_bounded rc oc Hlo Hhi).
  split.
  - intros ->. now destruct (includeMin _ && includeMax _)%bool.
  - intros Hgt. rewrite Hgt.
    assert (Heq : Version_Equal lo hi = false).
    { unfold Version_Equal, Version_GreaterThan in *.
      apply Z.ltb_lt in Hgt. apply Z.eqb_neq. lia. }
    now rewrite Heq.
Qed.

(** The hypotheses of C7 hold on [1.0, 2.0] with [2.0, 3.0] (equal merged
    bounds) and on [4.0, 5.0] with [1.5, 1.8] (lower above upper). *)
Lemma C7_range_collapse_witness :
  Intersect (C_range (SemVer.closed SemVer.v1_0 SemVer.v2_0))
            (C_range (SemVer.closed SemVer.v2_0 SemVer.v3_0))
  = Ok (C_Version SemVer.v2_0) /\
  Intersect (C_range (SemVer.closed SemVer.v4_0 SemVer.v5_0))
            (C_range (SemVer.closed SemVer.v1_5 SemVer.v1_8))
  = Ok None_.
Proof.
  split.
  - exact (proj1 (proj1 C7_range_collapse _ _
                    (SemVer.closed SemVer.v1_0 SemVer.v2_0)
                    (SemVer.closed SemVer.v2_0 SemVer.v3_0)
                    SemVer.v2_0 SemVer.v2_0 eq_refl eq_refl) eq_refl).
  - exact (proj2 (proj1 C7_range_collapse _ _
                    (SemVer.closed SemVer.v4_0 SemVer.v5_0)
                    (SemVer.closed SemVer.v1_5 SemVer.v1_8)
                    SemVer.v4_0 SemVer.v1_8 eq_refl eq_refl) eq_refl).
Defined.

(** The hypothesis of C8 holds for the three-segment versions; the
    instance is the range [1.0, 2.0) at version 2.0. *)
Lemma C8_range_Admits_witness :
  @VersionLaws SemVer.Version SemVer.ops /\
  (Admits (C_range (SemVer.halfOpen SemVer.v1_0 SemVer.v2_0)) SemVer.v2_0
   <> None
   <-> belowMin (SemVer.halfOpen SemVer.v1_0 SemVer.v2_0) SemVer.v2_0 \/
       aboveMax (SemVer.halfOpen SemVer.v1_0 SemVer.v2_0) SemVer.v2_0 \/
       excluded (SemVer.halfOpen SemVer.v1_0 SemVer.v2_0) SemVer.v2_0).
Proof.
  split.
  - exact SemVer_laws.
  - exact (proj1 (C8_range_Admits SemVer_laws
                    (SemVer.halfOpen SemVer.v1_0 SemVer.v2_0) SemVer.v2_0)).
Defined.

(** ** Further properties of the code *)

Section UnionFacts.

Context {V : Type} {ops : VersionOps V}.

Lemma findAny_None (cg : list (Constraint V)) :
  findAny cg = None <-> ~ In C_any cg.
Proof.
  induction cg as [|c cg IH]; simpl.
  - tauto.
  - destruct c; try (rewrite IH; intuition congruence).
    split; [discriminate|]. intros H. exfalso. apply H. now left.
Qed.

Lemma findAny_Some (cg : list (Constraint V)) (c : Constraint V) :
  findAny cg = Some c -> c = C_any.
Proof.
  induction cg as [|c' cg IH]; simpl; [discriminate|].
  destruct c'; auto. now intros [= <-].
Qed.

Lemma findAny_In (cg : list (Constraint V)) (c : Constraint V) :
  findAny cg = Some c -> In c cg.
Proof.
  induction cg as [|c' cg IH]; simpl; [discriminate|].
  destruct c'; try (intros H; right; now apply IH).
  intros [= <-]. now left.
Qed.

(** X1: [Union] panics exactly when it is given two or more constraints
    none of which is [any], and the panic is "unfinished". *)
Theorem X1_Union_panics_iff (cg : list (Constraint V)) :
  (exists msg, Union cg = Panic msg)
  <-> ((2 <= List.length cg)%nat /\ ~ In C_any cg) /\
      (forall msg, Union cg = Panic msg -> msg = "unfinished").
Proof.
  destruct cg as [|c [|c' cg]].
  - simpl. split; [intros [msg H]; discriminate|intros [[H _] _]; lia].
  - simpl. split; [intros [msg H]; discriminate|intros [[H _] _]; lia].
  - unfold Union.
    destruct (findAny (c :: c' :: cg)) as [a|] eqn:Hf.
    + split; [intros [msg H]; discriminate|].
      intros [[_ Hno] _]. apply findAny_None in Hno. congruence.
    + split.
      * intros _. split.
        -- split; [simpl; lia|now apply findAny_None].
        -- now intros msg [= <-].
      * intros _. now exists "unfinished".
Qed.

(** X2: when one of the constraints given to [Union] is [any], [Union]
    returns [any], however many other constraints there are. *)
Theorem X2_Union_any_supersedes (cg : list (Constraint V)) :
  In C_any cg -> Union cg = Ok C_any.
Proof.
  intros Hin.
  destruct cg as [|c [|c' cg]].
  - destruct Hin.
  - destruct Hin as [->|[]]. reflexivity.
  - unfold Union.
    destruct (findAny (c :: c' :: cg)) as [a|] eqn:Hf.
    + now rewrite (findAny_Some _ Hf).
    + apply findAny_None in Hf. contradiction.
Qed.

Lemma unionAdmitsLoop_nil_iff (admits : Constraint V -> option error)
    (uc : list (Constraint V)) (err : option error) :
  unionAdmitsLoop admits uc err = None
  <-> (exists c, In c uc /\ admits c = None) \/
      (err = None /\ uc = []).
Proof.
  revert err. induction uc as [|c uc IH]; intros err; simpl.
  - split.
    + intros ->. now right.
    + intros [(c & [] & _)|[-> _]]. reflexivity.
  - destruct (admits c) as [e|] eqn:Hc.
    + rewrite IH. split.
      * intros [(c' & Hin & Hc')|[H _]]; [|discriminate].
        left. exists c'. split; [now right|exact Hc'].
      * intros [(c' & [<-|Hin] & Hc')|[_ H]]; [congruence| |discriminate].
        left. now exists c'.
    + split; [|reflexivity]. intros _. left. exists c. split; [now left|exact Hc].
Qed.

(** X3: a union returns [nil] for [v] exactly when one of its members
    returns [nil] for [v], or it has no member at all. *)
Theorem X3_union_Admits_nil_iff (uc : list (Constraint V)) (v : V) :
  Admits (C_union uc) v = None
  <-> (exists c, In c uc /\ Admits c v = None) \/ uc = [].
Proof.
  rewrite Admits_union, unionAdmitsLoop_nil_iff. intuition.
Qed.

Lemma unionAdmitsLoop_app_last (admits : Constraint V -> option error)
    (uc : list (Constraint V)) (c : Constraint V) :
  (forall c', In c' uc -> admits c' <> None) ->
  forall err, unionAdmitsLoop admits (uc ++ [c])%list err = admits c.
Proof.
  induction uc as [|c0 uc IH]; intros Hno err; simpl.
  - now destruct (admits c).
  - destruct (admits c0) as [e|] eqn:Hc0.
    + apply IH. intros c' Hin. apply Hno. now right.
    + exfalso. apply (Hno c0); [now left|exact Hc0].
Qed.

(** X4: when every member of a union but the last rejects [v], the union
    returns what its last member returns: the errors of the earlier members
    are dropped. *)
Theorem X4_union_Admits_last_member (uc : list (Constraint V))
    (c : Constraint V) (v : V) :
  (forall c', In c' uc -> Admits c' v <> None) ->
  Admits (C_union (uc ++ [c])%list) v = Admits c v.
Proof.
  intros Hno. rewrite Admits_union.
  now apply unionAdmitsLoop_app_last.
Qed.




(** X6: a leading [*Version] is returned by [Intersection] whatever
    follows it, also when a later constraint is [none]. *)
Theorem X6_Intersection_leading_version (v : V) (cg : list (Constraint V)) :
  Intersection (C_Version v :: cg) = Ok (C_Version v).
Proof. destruct cg; reflexivity. Qed.

(** X7: for receivers of every type defined in the file, [any] is neutral
    for [Intersect] on both sides and [none] is absorbing on both sides. *)
Theorem X7_Intersect_any_neutral_none_absorbing :
  (forall c : Constraint V, Intersect C_any c = Ok c) /\
  (forall c : Constraint V, Intersect C_none c = Ok C_none) /\
  Intersect (@C_none V) C_any = Ok C_none /\
  Intersect (@C_any V) C_none = Ok C_none /\
  (forall rc : rangeConstraint V,
     Intersect (C_range rc) C_any = Ok (C_range rc) /\
     Intersect (C_range rc) C_none = Ok C_none) /\
  (forall uc : list (Constraint V),
     Intersect (C_union uc) C_any = Ok (C_union uc) /\
     Intersect (C_union uc) C_none = Ok C_none).
Proof. repeat split. Qed.

End UnionFacts.

Section RangeFacts.

Context {V : Type} {ops : VersionOps V}.

Lemma mergeMax_lower (nr oc : rangeConstraint V) :
  min (mergeMax nr oc) = min nr /\
  includeMin (mergeMax nr oc) = includeMin nr.
Proof.
  unfold mergeMax.
  destruct (max oc) as [omax|]; [|now split].
  destruct (max nr) as [nmax|]; [|now split].
  destruct (Version_GreaterThan nmax omax); [now split|].
  destruct (Version_Equal omax nmax && negb (includeMax oc))%bool; now split.
Qed.

Lemma mergeMin_upper (nr oc : rangeConstraint V) :
  max (mergeMin nr oc) = max nr /\
  includeMax (mergeMin nr oc) = includeMax nr.
Proof.
  unfold mergeMin.
  destruct (min oc) as [omin|]; [|now split].
  destruct (min nr) as [nmin|]; [|now split].
  destruct (Version_LessThan nmin omin); [now split|].
  destruct (Version_Equal omin nmin && negb (includeMin oc))%bool; now split.
Qed.

Lemma mergeMin_None (nr oc : rangeConstraint V) :
  min (mergeMin nr oc) = None <-> min nr = None /\ min oc = None.
Proof.
  unfold mergeMin.
  destruct (min oc) as [omin|] eqn:Ho; [|tauto].
  destruct (min nr) as [nmin|] eqn:Hn; simpl.
  - destruct (Version_LessThan nmin omin); simpl; [intuition discriminate|].
    destruct (Version_Equal omin nmin && negb (includeMin oc))%bool; simpl;
      rewrite ?Hn; intuition discriminate.
  - intuition discriminate.
Qed.

Lemma mergeMax_None (nr oc : rangeConstraint V) :
  max (mergeMax nr oc) = None <-> max nr = None /\ max oc = None.
Proof.
  unfold mergeMax.
  destruct (max oc) as [omax|] eqn:Ho; [|tauto].
  destruct (max nr) as [nmax|] eqn:Hn; simpl.
  - destruct (Version_GreaterThan nmax omax); simpl; [intuition discriminate|].
    destruct (Version_Equal omax nmax && negb (includeMax oc))%bool; simpl;
      rewrite ?Hn; intuition discriminate.
  - intuition discriminate.
Qed.

Lemma mergeBounds_min_None (rc oc : rangeConstraint V) :
  min (mergeBounds rc oc) = None <-> min rc = None /\ min oc = None.
Proof.
  unfold mergeBounds.
  rewrite (proj1 (mergeMax_lower _ oc)), mergeMin_None. reflexivity.
Qed.

Lemma mergeBounds_max_None (rc oc : rangeConstraint V) :
  max (mergeBounds rc oc) = None <-> max rc = None /\ max oc = None.
Proof.
  unfold mergeBounds.
  rewrite mergeMax_None, (proj1 (mergeMin_upper _ oc)). reflexivity.
Qed.

Lemma validate_panics_iff (nr : rangeConstraint V) :
  (exists msg, validate nr = Panic msg)
  <-> (min nr = None /\ max nr <> None) \/ (min nr <> None /\ max nr = None).
Proof.
  unfold validate.
  destruct (min nr) as [lo|], (max nr) as [hi|]; simpl.
  - split.
    + intros [msg H].
      destruct (Version_Equal lo hi);
        [destruct (includeMin nr && includeMax nr)%bool|
         destruct (Version_GreaterThan lo hi)]; discriminate.
    + intros [[H _]|[_ H]]; discriminate.
  - split; [intros _; right; split; [discriminate|reflexivity]|].
    intros _. now exists nilDereference.
  - split; [intros _; left; split; [reflexivity|discriminate]|].
    intros _. now exists nilDereference.
  - split; [intros [msg H]; discriminate|].
    intros [[_ H]|[H _]]; now elim H.
Qed.

(** X8: intersecting two ranges panics exactly when the two operands
    together bound one side only: neither has a lower bound while one has
    an upper bound, or neither has an upper bound while one has a lower
    bound. *)
Theorem X8_range_Intersect_panics_iff (rc oc : rangeConstraint V) :
  (exists msg, Intersect (C_range rc) (C_range oc) = Panic msg)
  <-> ((min rc = None /\ min oc = None) /\
       ~ (max rc = None /\ max oc = None)) \/
      (~ (min rc = None /\ min oc = None) /\
       (max rc = None /\ max oc = None)).
Proof.
  rewrite Intersect_range_range, validate_panics_iff.
  rewrite <- mergeBounds_min_None, <- mergeBounds_max_None.
  reflexivity.
Qed.

(** X9: a range returned by intersecting two ranges is never degenerate:
    either it has no bound at all, or it has both bounds and its lower
    bound is strictly less than its upper bound. *)
Theorem X9_range_Intersect_result_bounds (rc oc nr : rangeConstraint V) :
  Intersect (C_range rc) (C_range oc) = Ok (C_range nr) ->
  (min nr = None /\ max nr = None) \/
  (exists lo hi, min nr = Some lo /\ max nr = Some hi /\
                 Version_LessThan lo hi = true).
Proof.
  rewrite Intersect_range_range. unfold validate.
  destruct (min (mergeBounds rc oc)) as [lo|] eqn:Hlo,
           (max (mergeBounds rc oc)) as [hi|] eqn:Hhi; simpl;
    try discriminate.
  - destruct (Version_Equal lo hi) eqn:Heq.
    + destruct (includeMin _ && includeMax _)%bool; discriminate.
    + destruct (Version_GreaterThan lo hi) eqn:Hgt; [discriminate|].
      intros [= <-]. right. exists lo, hi. repeat split; auto.
      unfold Version_Equal, Version_GreaterThan, Version_LessThan in *.
      apply Z.eqb_neq in Heq. apply Z.ltb_ge in Hgt. apply Z.ltb_lt. lia.
  - intros [= <-]. now left.
Qed.

(** X10: a range whose two bounds are the same version and are not both
    inclusive rejects every version, and [AdmitsAny] still answers true
    for it. *)
Theorem X10_AdmitsAny_empty_range (rc : rangeConstraint V) (m : V) :
  min rc = Some m -> max rc = Some m ->
  (includeMin rc && includeMax rc)%bool = false ->
  AdmitsAny (C_range rc) = true /\
  forall v, Admits (C_range rc) v <> None.
Proof.
  intros Hmin Hmax Hinc. split; [reflexivity|].
  intros v. simpl. unfold rangeConstraint_Admits, checkMin, checkMax.
  rewrite Hmin, Hmax.
  destruct (includeMin rc), (includeMax rc); try discriminate; simpl;
    destruct (Z.eqb_spec (Version_Compare m v) 1),
             (Z.eqb_spec (Version_Compare m v) (-1));
    simpl; try discriminate; lia.
Qed.

End RangeFacts.

Section OrderedFacts.

Context {V : Type} {ops : VersionOps V}.
Context (laws : @VersionLaws V ops) (trans : @VersionTransitive V ops).

(** Everything the laws say about the comparisons among three versions. *)
Ltac order_facts a b c :=
  pose proof (Compare_range a b); pose proof (Compare_range a c);
  pose proof (Compare_range b c);
  pose proof (Compare_antisym a b); pose proof (Compare_antisym a c);
  pose proof (Compare_antisym b c);
  pose proof (Compare_trans a b c); pose proof (Compare_trans a c b);
  pose proof (Compare_trans b a c); pose proof (Compare_trans b c a);
  pose proof (Compare_trans c a b); pose proof (Compare_trans c b a).

Ltac bool_to_Z :=
  unfold Version_Equal, Version_LessThan, Version_GreaterThan in *;
  repeat match goal with
         | H : (_ <? _) = true |- _ => apply Z.ltb_lt in H
         | H : (_ <? _) = false |- _ => apply Z.ltb_ge in H
         | H : (_ =? _) = true |- _ => apply Z.eqb_eq in H
         | H : (_ =? _) = false |- _ => apply Z.eqb_neq in H
         end.

Lemma checkMin_None_iff (rc : rangeConstraint V) (v : V) :
  checkMin rc v = None
  <-> match min rc with
      | None => True
      | Some m => if includeMin rc then Version_Compare m v <> 1
                  else Version_Compare m v = -1
      end.
Proof.
  unfold checkMin. destruct (min rc) as [m|]; [|tauto].
  destruct (includeMin rc); simpl.
  - destruct (Z.eqb_spec (Version_Compare m v) 1); intuition discriminate.
  - destruct (Z.eqb_spec (Version_Compare m v) (-1)); simpl;
      intuition discriminate.
Qed.

Lemma checkMax_None_iff (rc : rangeConstraint V) (v : V) :
  checkMax rc v = None
  <-> match max rc with
      | None => True
      | Some m => if includeMax rc then Version_Compare m v <> -1
                  else Version_Compare m v = 1
      end.
Proof.
  unfold checkMax. destruct (max rc) as [m|]; [|tauto].
  destruct (includeMax rc); simpl.
  - destruct (Z.eqb_spec (Version_Compare m v) (-1)); intuition discriminate.
  - destruct (Z.eqb_spec (Version_Compare m v) 1); simpl;
      intuition discriminate.
Qed.

Lemma checkMin_ext (a b : rangeConstraint V) (v : V) :
  min a = min b -> includeMin a = includeMin b ->
  checkMin a v = checkMin b v.
Proof. unfold checkMin. now intros -> ->. Qed.

Lemma checkMax_ext (a b : rangeConstraint V) (v : V) :
  max a = max b -> includeMax a = includeMax b ->
  checkMax a v = checkMax b v.
Proof. unfold checkMax. now intros -> ->. Qed.

Lemma checkMin_mergeMin (nr oc : rangeConstraint V) (v : V) :
  checkMin (mergeMin nr oc) v = None
  <-> checkMin nr v = None /\ checkMin oc v = None.
Proof.
  rewrite !checkMin_None_iff. unfold mergeMin.
  destruct (min oc) as [b|] eqn:Ho; [|tauto].
  destruct (min nr) as [a|] eqn:Hn; simpl; [|tauto].
  order_facts a b v.
  destruct (Version_LessThan a b) eqn:Hlt; simpl.
  - bool_to_Z. destruct (includeMin nr), (includeMin oc); lia.
  - destruct (Version_Equal b a) eqn:Heq; simpl;
      destruct (includeMin oc) eqn:Hio; simpl; rewrite ?Hn;
      bool_to_Z; destruct (includeMin nr); lia.
Qed.

Lemma checkMax_mergeMax (nr oc : rangeConstraint V) (v : V) :
  checkMax (mergeMax nr oc) v = None
  <-> checkMax nr v = None /\ checkMax oc v = None.
Proof.
  rewrite !checkMax_None_iff. unfold mergeMax.
  destruct (max oc) as [b|] eqn:Ho; [|tauto].
  destruct (max nr) as [a|] eqn:Hn; simpl; [|tauto].
  order_facts a b v.
  destruct (Version_GreaterThan a b) eqn:Hgt; simpl.
  - bool_to_Z. destruct (includeMax nr), (includeMax oc); lia.
  - destruct (Version_Equal b a) eqn:Heq; simpl;
      destruct (includeMax oc) eqn:Hio; simpl; rewrite ?Hn;
      bool_to_Z; destruct (includeMax nr); lia.
Qed.

(** The merged bounds let through exactly the versions that the bounds of
    both operands let through. *)
Lemma checkMin_mergeBounds (rc oc : rangeConstraint V) (v : V) :
  checkMin (mergeBounds rc oc) v = None
  <-> checkMin rc v = None /\ checkMin oc v = None.
Proof.
  unfold mergeBounds.
  rewrite (checkMin_ext _ (mergeMin (dup rc) oc) v
             (proj1 (mergeMax_lower _ oc)) (proj2 (mergeMax_lower _ oc))).
  rewrite checkMin_mergeMin. reflexivity.
Qed.

Lemma checkMax_mergeBounds (rc oc : rangeConstraint V) (v : V) :
  checkMax (mergeBounds rc oc) v = None
  <-> checkMax rc v = None /\ checkMax oc v = None.
Proof.
  unfold mergeBounds. rewrite checkMax_mergeMax.
  rewrite (checkMax_ext _ (dup rc) v
             (proj1 (mergeMin_upper _ oc)) (proj2 (mergeMin_upper _ oc))).
  reflexivity.
Qed.

Lemma rangeConstraint_Admits_None (rc : rangeConstraint V) (v : V) :
  rangeConstraint_Admits rc v = None
  <-> checkMin rc v = None /\ checkMax rc v = None /\
      exclLoop (excl rc) v = None.
Proof.
  unfold rangeConstraint_Admits.
  destruct (checkMin rc v), (checkMax rc v), (exclLoop (excl rc) v);
    intuition discriminate.
Qed.

(** Range-against-range intersection keeps every version that both
    ranges admit. *)
Lemma Intersect_range_range_complete (rc oc : rangeConstraint V)
    (r : Constraint V) (v : V) :
  Intersect (C_range rc) (C_range oc) = Ok r ->
  Admits (C_range rc) v = None ->
  Admits (C_range oc) v = None ->
  Admits r v = None.
Proof.
  rewrite Intersect_range_range. simpl.
  rewrite !rangeConstraint_Admits_None.
  intros Hr (Hrmin & Hrmax & Hrex) (Homin & Homax & _).
  assert (Hmin : checkMin (mergeBounds rc oc) v = None)
    by now apply checkMin_mergeBounds.
  assert (Hmax : checkMax (mergeBounds rc oc) v = None)
    by now apply checkMax_mergeBounds.
  assert (Hnr : Admits (C_range (mergeBounds rc oc)) v = None).
  { simpl. apply rangeConstraint_Admits_None.
    now rewrite excl_mergeBounds. }
  revert Hr. unfold validate.
  apply checkMin_None_iff in Hmin. apply checkMax_None_iff in Hmax.
  destruct (min (mergeBounds rc oc)) as [lo|],
           (max (mergeBounds rc oc)) as [hi|]; simpl; try discriminate.
  - order_facts lo hi v.
    destruct (Version_Equal lo hi) eqn:Heq.
    + destruct (includeMin (mergeBounds rc oc)),
               (includeMax (mergeBounds rc oc)); simpl;
        intros [= <-]; simpl; bool_to_Z; try (exfalso; lia).
      unfold Version_Admits, Version_Equal.
      destruct (Z.eqb_spec (Version_Compare lo v) 0); [reflexivity|].
      exfalso. lia.
    + destruct (Version_GreaterThan lo hi) eqn:Hgt; intros [= <-];
        [|exact Hnr].
      exfalso. bool_to_Z.
      destruct (includeMin (mergeBounds rc oc)),
               (includeMax (mergeBounds rc oc)); lia.
  - intros [= <-]. exact Hnr.
Qed.

(** X11: whenever intersecting two ranges returns a constraint, that
    constraint admits every version that both ranges admit. *)
Theorem X11_range_Intersect_complete (rc oc : rangeConstraint V)
    (r : Constraint V) (v : V) :
  Intersect (C_range rc) (C_range oc) = Ok r ->
  Admits (C_range rc) v = None ->
  Admits (C_range oc) v = None ->
  Admits r v = None.
Proof. apply Intersect_range_range_complete. Qed.

(** X12: whenever intersecting two ranges returns a constraint, every
    version that this constraint admits lies within the bounds of both
    ranges; when the constraint is a range, the version is also admitted
    by the receiver. *)
Theorem X12_range_Intersect_within_bounds (rc oc : rangeConstraint V)
    (r : Constraint V) (v : V) :
  Intersect (C_range rc) (C_range oc) = Ok r ->
  Admits r v = None ->
  withinBounds rc v /\ withinBounds oc v /\
  (forall nr, r = C_range nr -> Admits (C_range rc) v = None).
Proof.
  rewrite Intersect_range_range. intros Hr Hv.
  assert (Hb : checkMin (mergeBounds rc oc) v = None /\
               checkMax (mergeBounds rc oc) v = None /\
               (forall nr, r = C_range nr ->
                  exclLoop (excl (mergeBounds rc oc)) v = None)).
  { revert Hr. unfold validate.
    rewrite checkMin_None_iff, checkMax_None_iff.
    destruct (min (mergeBounds rc oc)) as [lo|] eqn:Hlo,
             (max (mergeBounds rc oc)) as [hi|] eqn:Hhi; simpl;
      try discriminate.
    - order_facts lo hi v.
      destruct (Version_Equal lo hi) eqn:Heq.
      + destruct (includeMin (mergeBounds rc oc)) eqn:Himin,
                 (includeMax (mergeBounds rc oc)) eqn:Himax; simpl;
          intros [= <-]; simpl in Hv; try discriminate.
        unfold Version_Admits in Hv.
        destruct (Version_Equal lo v) eqn:Hlv; [|discriminate].
        bool_to_Z. repeat split; try lia. discriminate.
      + destruct (Version_GreaterThan lo hi) eqn:Hgt; intros [= <-];
          simpl in Hv; [discriminate|].
        apply rangeConstraint_Admits_None in Hv.
        destruct Hv as (Hmin & Hmax & Hex).
        apply checkMin_None_iff in Hmin. apply checkMax_None_iff in Hmax.
        rewrite Hlo in Hmin. rewrite Hhi in Hmax. auto.
    - intros [= <-]. simpl in Hv.
      apply rangeConstraint_Admits_None in Hv.
      destruct Hv as (_ & _ & Hex). auto. }
  destruct Hb as (Hmin & Hmax & Hex).
  apply checkMin_mergeBounds in Hmin. apply checkMax_mergeBounds in Hmax.
  destruct Hmin as [Hrmin Homin], Hmax as [Hrmax Homax].
  pose proof (checkMin_spec rc v) as S1. rewrite Hrmin in S1.
  pose proof (checkMax_spec rc v) as S2. rewrite Hrmax in S2.
  pose proof (checkMin_spec oc v) as S3. rewrite Homin in S3.
  pose proof (checkMax_spec oc v) as S4. rewrite Homax in S4.
  repeat split; auto.
  intros nr Hnr. simpl. apply rangeConstraint_Admits_None.
  repeat split; auto. rewrite <- (excl_mergeBounds rc oc). eauto.
Qed.

(** X13: when both ranges have a lower bound, the merged lower bound is the
    greater of the two with its own inclusive flag; when the two lower
    bounds are equal it is the receiver's, inclusive only if both are. *)
Theorem X13_merged_lower_bound (rc oc : rangeConstraint V) (a b : V) :
  min rc = Some a -> min oc = Some b ->
  (Version_LessThan a b = true ->
   min (mergeBounds rc oc) = Some b /\
   includeMin (mergeBounds rc oc) = includeMin oc) /\
  (Version_LessThan b a = true ->
   min (mergeBounds rc oc) = Some a /\
   includeMin (mergeBounds rc oc) = includeMin rc) /\
  (Version_Equal a b = true ->
   min (mergeBounds rc oc) = Some a /\
   includeMin (mergeBounds rc oc) = (includeMin rc && includeMin oc)%bool).
Proof.
  intros Ha Hb. unfold mergeBounds.
  destruct (mergeMax_lower (mergeMin (dup rc) oc) oc) as [-> ->].
  unfold mergeMin. rewrite Hb. simpl. rewrite Ha.
  pose proof (Compare_antisym a b) as Hab.
  split; [|split]; intros Hcmp;
    destruct (Version_LessThan a b) eqn:Hlt;
    destruct (Version_Equal b a) eqn:Heq;
    destruct (includeMin oc) eqn:Hio; simpl;
    rewrite ?Ha, ?Hb, ?Hio, ?andb_true_r, ?andb_false_r;
    try (split; reflexivity); exfalso; bool_to_Z; lia.
Qed.

(** X14: when both ranges have an upper bound, the merged upper bound is
    the lesser of the two with its own inclusive flag; when the two upper
    bounds are equal it is the receiver's, inclusive only if both are. *)
Theorem X14_merged_upper_bound (rc oc : rangeConstraint V) (a b : V) :
  max rc = Some a -> max oc = Some b ->
  (Version_GreaterThan a b = true ->
   max (mergeBounds rc oc) = Some b /\
   includeMax (mergeBounds rc oc) = includeMax oc) /\
  (Version_GreaterThan b a = true ->
   max (mergeBounds rc oc) = Some a /\
   includeMax (mergeBounds rc oc) = includeMax rc) /\
  (Version_Equal a b = true ->
   max (mergeBounds rc oc) = Some a /\
   includeMax (mergeBounds rc oc) = (includeMax rc && includeMax oc)%bool).
Proof.
  intros Ha Hb. unfold mergeBounds, mergeMax.
  rewrite (proj1 (mergeMin_upper (dup rc) oc)).
  rewrite Hb. simpl. rewrite Ha.
  pose proof (Compare_antisym a b) as Hab.
  split; [|split]; intros Hcmp;
    destruct (Version_GreaterThan a b) eqn:Hgt;
    destruct (Version_Equal b a) eqn:Heq;
    destruct (includeMax oc) eqn:Hio; simpl;
    rewrite ?(proj1 (mergeMin_upper (dup rc) oc)),
            ?(proj2 (mergeMin_upper (dup rc) oc)); simpl;
    rewrite ?Ha, ?Hb, ?Hio, ?andb_true_r, ?andb_false_r;
    try (split; reflexivity); exfalso; bool_to_Z; lia.
Qed.

End OrderedFacts.

Section CrossProductFacts.

Context {V : Type} {ops : VersionOps V}.

Lemma innerLoop_all_none (f : Constraint V -> result (Constraint V))
    (other newc : list (Constraint V)) :
  (forall oc, In oc other -> f oc = Ok C_none) ->
  innerLoop f other newc = Ok newc.
Proof.
  induction other as [|oc other IH]; intros Hall; simpl; [reflexivity|].
  rewrite (Hall oc) by now left. simpl.
  apply IH. intros oc' Hin. apply Hall. now right.
Qed.

Lemma crossLoop_all_none (f : Constraint V -> Constraint V -> result (Constraint V))
    (other uc newc : list (Constraint V)) :
  (forall c oc, In c uc -> In oc other -> f c oc = Ok C_none) ->
  crossLoop f other uc newc = Ok newc.
Proof.
  induction uc as [|c uc IH]; intros Hall; simpl; [reflexivity|].
  rewrite innerLoop_all_none by (intros oc Hin; apply Hall; [now left|exact Hin]).
  simpl. apply IH. intros c' oc Hc Hoc. apply Hall; [now right|exact Hoc].
Qed.

(** What the inner loop appends to [newc]: results of [f] that are not
    [none]; it appends nothing only when every result is [none]. *)
Lemma innerLoop_survivors (f : Constraint V -> result (Constraint V))
    (other newc l : list (Constraint V)) :
  innerLoop f other newc = Ok l ->
  exists s, l = (newc ++ s)%list /\
    Forall (fun i => i <> C_none /\ exists oc, In oc other /\ f oc = Ok i) s /\
    (s = [] -> forall oc, In oc other -> f oc = Ok C_none).
Proof.
  revert newc. induction other as [|oc other IH]; intros newc; simpl.
  - intros [= <-]. exists []. rewrite app_nil_r.
    repeat split; [constructor|intros _ oc []].
  - destruct (f oc) as [i|msg] eqn:Hf; simpl; [|discriminate].
    destruct (IsNone i) eqn:Hi; intros Hl.
    + apply IsNone_spec in Hi. subst i.
      destruct (IH _ Hl) as (s & -> & Hs & Hnil).
      exists s. repeat split.
      * eapply Forall_impl; [|exact Hs].
        intros i [Hi (oc' & Hin & Hoc')]. split; [exact Hi|].
        exists oc'. split; [now right|exact Hoc'].
      * intros Hs0 oc' [<-|Hin]; [exact Hf|now apply Hnil].
    + destruct (IH _ Hl) as (s & -> & Hs & _).
      exists (i :: s). rewrite <- app_assoc. repeat split.
      * constructor.
        -- split; [intros ->; discriminate|].
           exists oc. split; [now left|exact Hf].
        -- eapply Forall_impl; [|exact Hs].
           intros i' [Hi' (oc' & Hin & Hoc')]. split; [exact Hi'|].
           exists oc'. split; [now right|exact Hoc'].
      * discriminate.
Qed.

Lemma crossLoop_survivors
    (f : Constraint V -> Constraint V -> result (Constraint V))
    (other uc newc l : list (Constraint V)) :
  crossLoop f other uc newc = Ok l ->
  exists s, l = (newc ++ s)%list /\
    Forall (fun i => i <> C_none /\
              exists c oc, In c uc /\ In oc other /\ f c oc = Ok i) s /\
    (s = [] -> forall c oc, In c uc -> In oc other -> f c oc = Ok C_none).
Proof.
  revert newc. induction uc as [|c uc IH]; intros newc; simpl.
  - intros [= <-]. exists []. rewrite app_nil_r.
    repeat split; [constructor|intros _ c oc []].
  - destruct (innerLoop (f c) other newc) as [l1|msg] eqn:Hin1; simpl;
      [|discriminate].
    intros Hl.
    destruct (innerLoop_survivors _ _ _ Hin1) as (s1 & -> & Hs1 & Hnil1).
    destruct (IH _ Hl) as (s2 & -> & Hs2 & Hnil2).
    exists (s1 ++ s2)%list. rewrite <- app_assoc. repeat split.
    + apply Forall_app. split.
      * eapply Forall_impl; [|exact Hs1].
        intros i [Hi (oc & Hoc & Hf)]. split; [exact Hi|].
        exists c, oc. split; [now left|now split].
      * eapply Forall_impl; [|exact Hs2].
        intros i [Hi (c' & oc & Hc' & Hoc & Hf)]. split; [exact Hi|].
        exists c', oc. split; [now right|now split].
    + intros Happ. apply app_eq_nil in Happ. destruct Happ as [-> ->].
      intros c' oc [<-|Hc'] Hoc; [now apply Hnil1|now apply Hnil2].
Qed.

Lemma Intersect_union_others (uc : list (Constraint V)) (c2 : Constraint V) :
  (exists rc, c2 = C_range rc) \/ (exists oc, c2 = C_union oc) ->
  Intersect (C_union uc) c2
  = (newc <- crossLoop (fun c oc => Intersect c oc) (others c2) uc [] ;;
     Union newc).
Proof. intros [[rc ->]|[oc ->]]; reflexivity. Qed.

(** X15: intersecting a union with a range or with a union returns [none]
    exactly when every pairwise intersection of a member of the receiver
    with the range, or with a member of the argument, returns [none]. *)
Theorem X15_union_Intersect_none_iff (uc : list (Constraint V))
    (c2 : Constraint V) :
  (exists rc, c2 = C_range rc) \/ (exists oc, c2 = C_union oc) ->
  (Intersect (C_union uc) c2 = Ok C_none
   <-> forall c oc, In c uc -> In oc (others c2) ->
                    Intersect c oc = Ok C_none).
Proof.
  intros Hc2. rewrite (Intersect_union_others uc Hc2). split.
  - destruct (crossLoop _ (others c2) uc []) as [newc|msg] eqn:Hloop; simpl;
      [|discriminate].
    destruct (crossLoop_survivors _ _ _ _ Hloop) as (s & Hs & Hall & Hnil).
    simpl in Hs. subst newc. intros HU. apply Hnil.
    destruct s as [|i [|i' s]]; [reflexivity| |].
    + simpl in HU. injection HU as ->.
      inversion Hall as [|? ? [Hi _] _]. now elim Hi.
    + exfalso. unfold Union in HU.
      destruct (findAny (i :: i' :: s)) as [a|] eqn:Hf; [|discriminate].
      apply findAny_Some in Hf. congruence.
  - intros Hall. now rewrite crossLoop_all_none.
Qed.

(** X16: whenever intersecting a union with a range or with a union
    returns a constraint, that constraint is [none] or is itself the result
    of intersecting one member of the receiver with the range or with one
    member of the argument; no new union is ever built. *)
Theorem X16_union_Intersect_result (uc : list (Constraint V))
    (c2 r : Constraint V) :
  (exists rc, c2 = C_range rc) \/ (exists oc, c2 = C_union oc) ->
  Intersect (C_union uc) c2 = Ok r ->
  r = C_none \/
  exists c oc, In c uc /\ In oc (others c2) /\ Intersect c oc = Ok r.
Proof.
  intros Hc2. rewrite (Intersect_union_others uc Hc2).
  destruct (crossLoop _ (others c2) uc []) as [newc|msg] eqn:Hloop; simpl;
    [|discriminate].
  destruct (crossLoop_survivors _ _ _ _ Hloop) as (s & Hs & Hall & _).
  simpl in Hs. subst newc. intros HU.
  assert (Hin : r = C_none \/ In r s).
  { destruct s as [|i [|i' s]].
    - left. now injection HU as <-.
    - right. injection HU as <-. now left.
    - right. unfold Union in HU.
      destruct (findAny (i :: i' :: s)) as [a|] eqn:Hf; [|discriminate].
      injection HU as <-.
      now apply findAny_In. }
  destruct Hin as [->|Hin]; [now left|right].
  rewrite Forall_forall in Hall. now destruct (Hall r Hin).
Qed.

End CrossProductFacts.

Section EmptyUnionFacts.

Context {V : Type} {ops : VersionOps V}.

(** X17: under [Intersect] a union with no member behaves as the empty
    set: intersecting any union with it, or it with any range or union, or
    any range with it, returns [none] and never panics. *)
Theorem X17_empty_union_Intersect :
  (forall uc : list (Constraint V),
     Intersect (C_union uc) (C_union []) = Ok C_none) /\
  (forall oc : list (Constraint V),
     Intersect (C_union []) (C_union oc) = Ok C_none) /\
  (forall rc : rangeConstraint V,
     Intersect (C_union []) (C_range rc) = Ok C_none /\
     Intersect (C_range rc) (C_union []) = Ok C_none).
Proof.
  split; [|split; [reflexivity|split; reflexivity]].
  intros uc. rewrite Intersect_union_union.
  rewrite crossLoop_all_none; [reflexivity|].
  intros c oc _ [].
Qed.

End EmptyUnionFacts.

Section IntersectionFacts.

Context {V : Type} {ops : VersionOps V}.

(** X18: a leading [any] changes nothing: [Intersection] of [any] followed
    by at least one constraint is [Intersection] of those constraints. *)
Theorem X18_Intersection_leading_any (cg : list (Constraint V)) :
  cg <> [] ->
  Intersection (C_any :: cg) = Intersection cg.
Proof.
  intros Hne. destruct cg as [|c [|c' cg]]; [congruence| |].
  - destruct c; reflexivity.
  - unfold Intersection.
    change (findSuperseding (C_any :: c :: c' :: cg))
      with (findSuperseding (c :: c' :: cg)).
    destruct (findSuperseding (c :: c' :: cg)); reflexivity.
Qed.

Lemma findSuperseding_ranges (cg : list (Constraint V)) :
  (forall c, In c cg -> exists rc, c = C_range rc) ->
  findSuperseding cg = None.
Proof.
  induction cg as [|c cg IH]; intros Hall; simpl; [reflexivity|].
  destruct (Hall c (or_introl eq_refl)) as [rc ->].
  apply IH. intros c' Hin. apply Hall. now right.
Qed.

(** Range against range returns a range, a version or [none]. *)
Lemma Intersect_range_range_shape (rc oc : rangeConstraint V)
    (r : Constraint V) :
  Intersect (C_range rc) (C_range oc) = Ok r ->
  (exists nr, r = C_range nr) \/ (exists lo, r = C_Version lo) \/ r = C_none.
Proof.
  rewrite Intersect_range_range. unfold validate.
  destruct (min (mergeBounds rc oc)) as [lo|],
           (max (mergeBounds rc oc)) as [hi|]; simpl; try discriminate.
  - destruct (Version_Equal lo hi).
    + destruct (includeMin _ && includeMax _)%bool; intros [= <-]; eauto.
    + destruct (Version_GreaterThan lo hi); intros [= <-]; eauto.
  - intros [= <-]. eauto.
Qed.

Context (laws : @VersionLaws V ops) (trans : @VersionTransitive V ops).

Ltac order_facts a b c :=
  pose proof (Compare_range a b); pose proof (Compare_range a c);
  pose proof (Compare_range b c);
  pose proof (Compare_antisym a b); pose proof (Compare_antisym a c);
  pose proof (Compare_antisym b c);
  pose proof (Compare_trans a b c); pose proof (Compare_trans a c b);
  pose proof (Compare_trans b a c); pose proof (Compare_trans b c a);
  pose proof (Compare_trans c a b); pose proof (Compare_trans c b a).

(** A range that admits [v] admits every version equal to [v]. *)
Lemma rangeConstraint_Admits_Equal (rc : rangeConstraint V) (lo v : V) :
  Version_Equal lo v = true ->
  rangeConstraint_Admits rc v = None ->
  rangeConstraint_Admits rc lo = None.
Proof.
  intros Heq. unfold Version_Equal in Heq. apply Z.eqb_eq in Heq.
  rewrite !rangeConstraint_Admits_None.
  rewrite !checkMin_None_iff, !checkMax_None_iff.
  intros (Hmin & Hmax & Hex). repeat split.
  - destruct (min rc) as [m|]; [|exact I].
    order_facts m lo v. destruct (includeMin rc); lia.
  - destruct (max rc) as [m|]; [|exact I].
    order_facts m lo v. destruct (includeMax rc); lia.
  - revert Hex. induction (excl rc) as [|e l IH]; simpl; [reflexivity|].
    unfold Version_Equal.
    destruct (Z.eqb_spec (Version_Compare e v) 0); [discriminate|].
    intros Hl.
    destruct (Z.eqb_spec (Version_Compare e lo) 0); [|now apply IH].
    exfalso. order_facts e lo v. lia.
Qed.

Lemma foldIntersect_ranges_complete (v : V) (tail : list (Constraint V)) :
  (forall c, In c tail -> exists rc, c = C_range rc) ->
  (forall c, In c tail -> Admits c v = None) ->
  forall head r,
    (exists rc, head = C_range rc) \/ (exists lo, head = C_Version lo) ->
    Admits head v = None ->
    foldIntersect head tail = Ok r ->
    Admits r v = None.
Proof.
  induction tail as [|c tail IH]; intros Hranges Hadmit head r Hhead Hv; simpl.
  - now intros [= <-].
  - destruct (Hranges c (or_introl eq_refl)) as [oc ->].
    pose proof (Hadmit _ (or_introl eq_refl)) as Hoc.
    destruct (Intersect head (C_range oc)) as [head'|msg] eqn:Hi; simpl;
      [|discriminate].
    assert (Hv' : Admits head' v = None).
    { destruct Hhead as [[rc ->]|[lo ->]].
      - exact (Intersect_range_range_complete laws trans rc oc v Hi Hv Hoc).
      - simpl in Hi. unfold Version_Intersect in Hi. simpl in Hi.
        simpl in Hv. unfold Version_Admits in Hv.
        destruct (Version_Equal lo v) eqn:Hlo; [|discriminate].
        simpl in Hoc.
        rewrite (rangeConstraint_Admits_Equal oc lo v Hlo Hoc) in Hi.
        injection Hi as <-. simpl. unfold Version_Admits. now rewrite Hlo. }
    apply IH.
    + intros c' Hin. apply Hranges. now right.
    + intros c' Hin. apply Hadmit. now right.
    + destruct Hhead as [[rc ->]|[lo ->]].
      * destruct (Intersect_range_range_shape rc oc Hi)
          as [Hs|[Hs| ->]]; auto.
        simpl in Hv'. discriminate.
      * simpl in Hi. unfold Version_Intersect in Hi.
        destruct (Admits (C_range oc) lo); injection Hi as <-; eauto.
        simpl in Hv'. discriminate.
    + exact Hv'.
Qed.

(** X19: whenever [Intersection] of one or more ranges returns a
    constraint, that constraint admits every version that all the ranges
    admit.  (Once the running result has collapsed to a single version, the
    following steps are [Version.Intersect], taken from the collaborator's
    contract.) *)
Theorem X19_Intersection_ranges_complete (cg : list (Constraint V))
    (r : Constraint V) (v : V) :
  cg <> [] ->
  (forall c, In c cg -> exists rc, c = C_range rc) ->
  (forall c, In c cg -> Admits c v = None) ->
  Intersection cg = Ok r ->
  Admits r v = None.
Proof.
  intros Hne Hranges Hadmit.
  destruct cg as [|head [|c tail]]; [congruence| |].
  - intros [= <-]. apply Hadmit. now left.
  - unfold Intersection. rewrite (findSuperseding_ranges _ Hranges).
    apply foldIntersect_ranges_complete.
    + intros c' Hin. apply Hranges. now right.
    + intros c' Hin. apply Hadmit. now right.
    + left. apply Hranges. now left.
    + apply Hadmit. now left.
Qed.

End IntersectionFacts.

(** ** The concrete Version is transitive *)

Lemma SemVer_Compare_le (a b : SemVer.Version) :
  SemVer.Compare a b <= 0
  <-> (SemVer.major a < SemVer.major b)%N \/
      (SemVer.major a = SemVer.major b /\
       ((SemVer.minor a < SemVer.minor b)%N \/
        (SemVer.minor a = SemVer.minor b /\
         (SemVer.patch a <= SemVer.patch b)%N))).
Proof.
  unfold SemVer.Compare, SemVer.compareSegment.
  destruct (N.ltb_spec (SemVer.major a) (SemVer.major b));
    destruct (N.ltb_spec (SemVer.major b) (SemVer.major a)); simpl;
    try lia;
    destruct (N.ltb_spec (SemVer.minor a) (SemVer.minor b));
    destruct (N.ltb_spec (SemVer.minor b) (SemVer.minor a)); simpl;
    try lia;
    destruct (N.ltb_spec (SemVer.patch a) (SemVer.patch b));
    destruct (N.ltb_spec (SemVer.patch b) (SemVer.patch a)); simpl;
    lia.
Qed.

Lemma SemVer_transitive : @VersionTransitive SemVer.Version SemVer.ops.
Proof.
  split. intros a b c. simpl. rewrite !SemVer_Compare_le. lia.
Qed.

(** ** The hypotheses of the further properties are satisfiable *)

Section Witnesses.

Import SemVer.

Lemma X2_Union_any_supersedes_witness :
  Union [C_range (closed v1_0 v2_0); @C_any Version] = Ok C_any.
Proof.
  apply (@X2_Union_any_supersedes Version [C_range (closed v1_0 v2_0); C_any]).
  simpl. right. left. reflexivity.
Defined.

Lemma X4_union_Admits_last_member_witness :
  Admits (C_union ([C_none; C_range (closed v1_0 v2_0)]
                   ++ [C_range (closed v4_0 v5_0)])%list) v3_0
  = Admits (C_range (closed v4_0 v5_0)) v3_0.
Proof.
  apply (@X4_union_Admits_last_member Version ops
           [C_none; C_range (closed v1_0 v2_0)]
           (C_range (closed v4_0 v5_0)) v3_0).
  intros c' [<-|[<-|[]]]; vm_compute; discriminate.
Defined.


Lemma X9_range_Intersect_result_bounds_witness :
  (min (closed v1_5 v2_0) = None /\ max (closed v1_5 v2_0) = None) \/
  (exists lo hi, min (closed v1_5 v2_0) = Some lo /\
                 max (closed v1_5 v2_0) = Some hi /\
                 Version_LessThan lo hi = true).
Proof.
  exact (@X9_range_Intersect_result_bounds Version ops
           (closed v1_0 v2_0) (closed v1_5 v3_0) (closed v1_5 v2_0) eq_refl).
Defined.

Lemma X10_AdmitsAny_empty_range_witness :
  AdmitsAny (C_range (halfOpen v2_0 v2_0)) = true /\
  forall v, Admits (C_range (halfOpen v2_0 v2_0)) v <> None.
Proof.
  exact (@X10_AdmitsAny_empty_range Version ops (halfOpen v2_0 v2_0) v2_0
           eq_refl eq_refl eq_refl).
Defined.

Lemma X11_range_Intersect_complete_witness :
  Admits (C_range (closed v1_5 v2_0)) v1_8 = None.
Proof.
  exact (@X11_range_Intersect_complete Version ops SemVer_laws SemVer_transitive
           (closed v1_0 v2_0) (closed v1_5 v3_0) (C_range (closed v1_5 v2_0))
           v1_8 eq_refl eq_refl eq_refl).
Defined.

Lemma X12_range_Intersect_within_bounds_witness :
  withinBounds (closed v1_0 v2_0) v1_8 /\
  withinBounds (closed v1_5 v3_0) v1_8 /\
  (forall nr, C_range (closed v1_5 v2_0) = C_range nr ->
              Admits (C_range (closed v1_0 v2_0)) v1_8 = None).
Proof.
  exact (@X12_range_Intersect_within_bounds Version ops SemVer_laws
           SemVer_transitive
           (closed v1_0 v2_0) (closed v1_5 v3_0) (C_range (closed v1_5 v2_0))
           v1_8 eq_refl eq_refl).
Defined.

Lemma X13_merged_lower_bound_witness :
  (min (mergeBounds (closed v1_0 v5_0) (halfOpen v2_0 v5_0)) = Some v2_0 /\
   includeMin (mergeBounds (closed v1_0 v5_0) (halfOpen v2_0 v5_0)) = true) /\
  (min (mergeBounds (closed v2_0 v5_0)
          (mkRange (Some v2_0) None false false [])) = Some v2_0 /\
   includeMin (mergeBounds (closed v2_0 v5_0)
                 (mkRange (Some v2_0) None false false []))
   = (true && false)%bool).
Proof.
  split.
  - exact (proj1 (@X13_merged_lower_bound Version ops SemVer_laws
                    (closed v1_0 v5_0) (halfOpen v2_0 v5_0) v1_0 v2_0
                    eq_refl eq_refl) eq_refl).
  - exact (proj2 (proj2 (@X13_merged_lower_bound Version ops SemVer_laws
                    (closed v2_0 v5_0)
                    (mkRange (Some v2_0) None false false []) v2_0 v2_0
                    eq_refl eq_refl)) eq_refl).
Defined.

Lemma X14_merged_upper_bound_witness :
  (max (mergeBounds (closed v1_0 v5_0) (halfOpen v1_0 v2_0)) = Some v2_0 /\
   includeMax (mergeBounds (closed v1_0 v5_0) (halfOpen v1_0 v2_0)) = false) /\
  (max (mergeBounds (closed v1_0 v2_0) (halfOpen v1_0 v2_0)) = Some v2_0 /\
   includeMax (mergeBounds (closed v1_0 v2_0) (halfOpen v1_0 v2_0))
   = (true && false)%bool).
Proof.
  split.
  - exact (proj1 (@X14_merged_upper_bound Version ops SemVer_laws
                    (closed v1_0 v5_0) (halfOpen v1_0 v2_0) v5_0 v2_0
                    eq_refl eq_refl) eq_refl).
  - exact (proj2 (proj2 (@X14_merged_upper_bound Version ops SemVer_laws
                    (closed v1_0 v2_0) (halfOpen v1_0 v2_0) v2_0 v2_0
                    eq_refl eq_refl)) eq_refl).
Defined.

Lemma X15_union_Intersect_none_iff_witness :
  Intersect (C_union unionLeft) (C_range (closed v3_0 v3_0)) = Ok C_none.
Proof.
  apply (proj2 (@X15_union_Intersect_none_iff Version ops unionLeft
                  (C_range (closed v3_0 v3_0))
                  (or_introl (ex_intro _ (closed v3_0 v3_0) eq_refl)))).
  intros c oc [<-|[<-|[]]] [<-|[]]; reflexivity.
Defined.

Lemma X16_union_Intersect_result_witness :
  C_range (closed v1_5 v1_8) = C_none \/
  exists c oc,
    In c unionLeft /\ In oc (others (C_range (closed v1_5 v1_8))) /\
    Intersect c oc = Ok (C_range (closed v1_5 v1_8)).
Proof.
  exact (@X16_union_Intersect_result Version ops unionLeft
           (C_range (closed v1_5 v1_8)) (C_range (closed v1_5 v1_8))
           (or_introl (ex_intro _ (closed v1_5 v1_8) eq_refl)) eq_refl).
Defined.

Lemma X18_Intersection_leading_any_witness :
  Intersection [C_any; C_range (closed v1_0 v2_0); C_range (closed v1_5 v3_0)]
  = Intersection [C_range (closed v1_0 v2_0); C_range (closed v1_5 v3_0)].
Proof.
  apply (@X18_Intersection_leading_any Version ops
           [C_range (closed v1_0 v2_0); C_range (closed v1_5 v3_0)]).
  discriminate.
Defined.

Lemma X19_Intersection_ranges_complete_witness :
  Admits (C_Version v2_0) v2_0 = None.
Proof.
  apply (@X19_Intersection_ranges_complete Version ops SemVer_laws
           SemVer_transitive
           [C_range (closed v1_0 v2_0); C_range (closed v2_0 v3_0);
            C_range (closed v1_5 v5_0)]
           (C_Version v2_0) v2_0).
  - discriminate.
  - intros c [<-|[<-|[<-|[]]]]; eexists; reflexivity.
  - intros c [<-|[<-|[<-|[]]]]; reflexivity.
  - reflexivity.
Defined.

End Witnesses.
